(** * Handshake: a shallow embedding of [src/src/lib.rs]

    A [Handshake<T>] is a handle holding an [Arc<RwLock<Option<T>>>].  We
    model the Rust heap as a finite map from allocation addresses to the
    Arc allocation, which carries the lock's content (the [Option<T>]) and
    the Arc's strong count.  Handles are pointers into that heap.

    Operations are functions from the heap to an [Outcome]: either a
    returned value with the new heap, or a panic (the [assert!] of the
    source, or an [unwrap] failing).  The crate has no [catch_unwind], so a
    panic ends the run; lock poisoning is therefore never observed by a
    later operation and is not modelled. *)

From stdpp Require Import base gmap strings.

Module Handshake.

(** [pub struct Canceled;] *)
Inductive Canceled : Type := canceled.

(** Rust's [Result<A, E>]. *)
Inductive Result (A E : Type) : Type :=
| Ok (a : A)
| Err (e : E).
Arguments Ok {A E} a.
Arguments Err {A E} e.

(** The result of running an operation on a heap [H]: the returned value
    with the new heap, or a panic. *)
Inductive Outcome_ (H A : Type) : Type :=
| Ret (a : A) (heap : H)
| Panic (msg : string).
Arguments Ret {H A} a heap.
Arguments Panic {H A} msg.

Section Model.
Context {T : Type}.

(** The Arc allocation: the [RwLock<Option<T>>] payload and the strong count. *)
Record Shared : Type := mkShared {
  value : option T;
  strong : nat
}.

(** [pub struct Handshake<T> { common: Arc<RwLock<Option<T>>> }]: the Arc is
    a pointer into the heap. *)
Record Handshake : Type := mkHandshake {
  common : nat
}.

Local Abbreviation Outcome A := (Outcome_ (gmap nat Shared) A).

(** ** Arc primitives *)

(** [Arc::new(v)]: a fresh allocation with strong count 1. *)
Definition arc_new (v : option T) (heap : gmap nat Shared) : nat * gmap nat Shared :=
  let l := fresh (dom heap) in
  (l, <[l := mkShared v 1]> heap).

(** [Arc::clone]: bump the strong count. *)
Definition arc_clone (l : nat) (heap : gmap nat Shared) : gmap nat Shared :=
  match heap !! l with
  | Some s => <[l := mkShared (value s) (S (strong s))]> heap
  | None => heap
  end.

(** [Drop for Arc]: decrement the strong count; the last release frees the
    allocation together with the value it holds. *)
Definition arc_drop (l : nat) (heap : gmap nat Shared) : gmap nat Shared :=
  match heap !! l with
  | Some s =>
      match strong s with
      | 0 | 1 => delete l heap
      | S n => <[l := mkShared (value s) n]> heap
      end
  | None => heap
  end.

(** Dropping a [Handshake] drops its Arc (there is no [Drop] impl of its own). *)
Definition drop_handle (self : Handshake) (heap : gmap nat Shared) : gmap nat Shared :=
  arc_drop (common self) heap.

(** ** The operations of [impl<T> Handshake<T>] *)

(** [new]: [Default::default()] for [Arc<RwLock<Option<T>>>] is an empty
    slot; the second handle is an [Arc::clone] of the first. *)
Definition new (heap : gmap nat Shared) : (Handshake * Handshake) * gmap nat Shared :=
  let '(l, heap) := arc_new None heap in
  let h1 := mkHandshake l in
  let heap := arc_clone (common h1) heap in
  ((h1, mkHandshake (common h1)), heap).

Definition push_assert_msg : string := "try to push to already pushed handshake".
Definition dangling_msg : string := "handle to a freed allocation".

(** [try_push]: the [assert!] panics on a full slot; otherwise the value is
    written and [self] is forgotten ([std::mem::forget]), so its strong count
    is never released. *)
Definition try_push (self : Handshake) (v : T) (heap : gmap nat Shared)
  : Outcome (Result (Result unit (Handshake * T)) T) :=
  match heap !! common self with
  | None => Panic dangling_msg
  | Some s =>
      match value s with
      | Some _ => Panic push_assert_msg
      | None =>
          let heap := <[common self := mkShared (Some v) (strong s)]> heap in
          Ret (Ok (Ok tt)) heap
      end
  end.

(** [try_pull]: note the same [assert!(common.is_none(), ..)] as in
    [try_push], before [common.take()].  When [take] finds a value, [self]
    is dropped at the end of the function; otherwise [self] is returned. *)
Definition try_pull (self : Handshake) (heap : gmap nat Shared)
  : Outcome (Result (Result T Handshake) Canceled) :=
  match heap !! common self with
  | None => Panic dangling_msg
  | Some s =>
      match value s with
      | Some _ => Panic push_assert_msg
      | None =>
          match value s with
          | Some res =>
              let heap := <[common self := mkShared None (strong s)]> heap in
              Ret (Ok (Ok res)) (drop_handle self heap)
          | None => Ret (Ok (Err self)) heap
          end
      end
  end.

(** [join]: [let Ok(other) = self.try_pull()? else { return Err(Canceled) };]
    The [?] propagates [Err(Canceled)]; an [Ok(Err(h))] falls into the
    [else] branch, which drops [h] and returns [Err(Canceled)]. *)
Definition join {U : Type} (self : Handshake) (v : T) (f : T -> T -> U)
    (heap : gmap nat Shared) : Outcome (Result (option U) Canceled) :=
  match try_pull self heap with
  | Panic m => Panic m
  | Ret (Err c) heap => Ret (Err c) heap
  | Ret (Ok (Err h)) heap => Ret (Err canceled) (drop_handle h heap)
  | Ret (Ok (Ok other)) heap => Ret (Ok (Some (f other v))) heap
  end.

(** [is_set]: a read of the slot. *)
Definition is_set (self : Handshake) (heap : gmap nat Shared) : Outcome bool :=
  match heap !! common self with
  | None => Panic dangling_msg
  | Some s =>
      match value s with
      | Some _ => Ret true heap
      | None => Ret false heap
      end
  end.

(** [impl PartialEq for Option<T>], given [T]'s [eq]. *)
Definition option_eq (teq : T -> T -> bool) (x y : option T) : bool :=
  match x, y with
  | None, None => true
  | Some a, Some b => teq a b
  | _, _ => false
  end.

(** [impl<T: PartialEq> PartialEq for Handshake<T>]: compares the contents
    of the two slots. *)
Definition eq (teq : T -> T -> bool) (self other : Handshake) (heap : gmap nat Shared)
  : Outcome bool :=
  match heap !! common self, heap !! common other with
  | Some s, Some o => Ret (option_eq teq (value s) (value o)) heap
  | _, _ => Panic dangling_msg
  end.

End Model.

(** ** Runs of one pair

    A configuration holds the heap, the address of the pair's allocation and
    the two handles ([None] once consumed or dropped).  Because every
    terminal operation takes [self] by value, a program can only operate on a
    handle it still owns: [step] is undefined on a consumed handle, and on a
    panic. *)
Section Runs.
Context {T : Type}.

Inductive Side : Type := Left | Right.

Inductive Op : Type :=
| OpPush (v : T)
| OpPull
| OpJoin (v : T) (f : T -> T -> T)
| OpIsSet
| OpDrop.

Record Config : Type := mkConfig {
  heap : gmap nat (Shared (T:=T));
  slot : nat;
  left : option Handshake;
  right : option Handshake
}.

Definition handle_of (c : Config) (sd : Side) : option Handshake :=
  match sd with Left => left c | Right => right c end.

Definition update (c : Config) (hp : gmap nat Shared) (sd : Side) (oh : option Handshake)
  : Config :=
  match sd with
  | Left => mkConfig hp (slot c) oh (right c)
  | Right => mkConfig hp (slot c) (left c) oh
  end.

Definition step (c : Config) (sd : Side) (o : Op) : option Config :=
  match handle_of c sd with
  | None => None
  | Some h =>
      match o with
      | OpPush v =>
          match try_push h v (heap c) with
          | Ret (Ok (Ok _)) hp => Some (update c hp sd None)
          | Ret (Ok (Err (h', _))) hp => Some (update c hp sd (Some h'))
          | Ret (Err _) hp => Some (update c hp sd None)
          | Panic _ => None
          end
      | OpPull =>
          match try_pull h (heap c) with
          | Ret (Ok (Ok _)) hp => Some (update c hp sd None)
          | Ret (Ok (Err h')) hp => Some (update c hp sd (Some h'))
          | Ret (Err _) hp => Some (update c hp sd None)
          | Panic _ => None
          end
      | OpJoin v f =>
          match join h v f (heap c) with
          | Ret _ hp => Some (update c hp sd None)
          | Panic _ => None
          end
      | OpIsSet =>
          match is_set h (heap c) with
          | Ret _ hp => Some (update c hp sd (Some h))
          | Panic _ => None
          end
      | OpDrop => Some (update c (drop_handle h (heap c)) sd None)
      end
  end.

(** The configurations visited by a run, starting with [c]; [None] when an
    operation panics or uses a consumed handle. *)
Fixpoint run (c : Config) (ops : list (Side * Op)) : option (list Config) :=
  match ops with
  | [] => Some [c]
  | (sd, o) :: ops =>
      match step c sd o with
      | Some c' => cons c <$> run c' ops
      | None => None
      end
  end.

(** A pair freshly created by [Handshake::new()] on an empty heap. *)
Definition init : Config :=
  let '((a, b), hp) := new (T:=T) ∅ in mkConfig hp (common a) (Some a) (Some b).

Inductive reachable : Config -> Prop :=
| reachable_init : reachable init
| reachable_step c sd o c' : reachable c -> step c sd o = Some c' -> reachable c'.

(** What the pair's allocation holds: [None] once freed, otherwise the
    slot's [Option<T>]. *)
Definition contents (c : Config) : option (option T) :=
  value <$> heap c !! slot c.

End Runs.

Section Invariant.
Context {T : Type}.
Implicit Types (c : Config (T:=T)).

Definition live c : nat :=
  (if left c then 1 else 0) + (if right c then 1 else 0).

(** The strong count of the pair's allocation is the number of live
    handles, plus one for the handle [try_push] forgot; both live handles
    point at the allocation. *)
Definition Inv c : Prop :=
  (forall h, left c = Some h -> common h = slot c) /\
  (forall h, right c = Some h -> common h = slot c) /\
  match heap c !! slot c with
  | Some s => strong s = live c + (if value s then 1 else 0)
  | None => live c = 0
  end.

End Invariant.

(** ** Concrete runs over [T := nat] *)

(** The pair after its left handle pushed [5]. *)
Definition after_left_push : Config (T:=nat) :=
  match step init Left (OpPush 5) with Some c => c | None => init end.

Definition push_isset_drop : list (Side * Op (T:=nat)) :=
  [(Left, OpPush 3); (Right, OpIsSet); (Right, OpDrop)].

(** The pair after its left handle pushed [5] and its right handle was
    dropped: no handle is left. *)
Definition after_push_and_drop : Config (T:=nat) :=
  match step after_left_push Right OpDrop with Some c => c | None => init end.

Arguments Shared : clear implicits.
Arguments Handshake : clear implicits.
End Handshake.

(** * The demonstration program [src/src/main.rs] *)
Module Demo.
Import Handshake.

(** [|x, y| format!("{} {}!", x, y)] *)
Definition combine (x y : string) : string :=
  String.append x (String.append " " (String.append y "!")).

(** The message of [Result::unwrap] on [Err(Canceled)] ([Canceled] derives
    [Debug]). *)
Definition unwrap_err_msg : string :=
  "called `Result::unwrap()` on an `Err` value: Canceled".

(** One task block: [h.join(v.into(), combine).unwrap().map(|s| println!("{}", s))];
    [out] is the standard output so far. *)
Definition task (h : Handshake) (v : string) (hp : gmap nat (Shared string))
    (out : list string) : Outcome_ (gmap nat (Shared string)) (list string) :=
  match join h v combine hp with
  | Panic m => Panic m
  | Ret (Err _) _ => Panic unwrap_err_msg
  | Ret (Ok r) hp =>
      match r with
      | Some line => Ret (out ++ [line]) hp
      | None => Ret out hp
      end
  end.

(** [fn main()]: one pair of [Box<str>] handles, task A then task B. *)
Definition main : Outcome_ (gmap nat (Shared string)) (list string) :=
  let '((u, v), hp) := new ∅ in
  match task u "Handle Communication" hp [] with
  | Panic m => Panic m
  | Ret out hp => task v "Symmetrically" hp out
  end.

End Demo.

(** * Properties *)

Module HandshakeFacts.
Import Handshake.

Section Ops.
Context {T : Type}.
Implicit Types (hp : gmap nat (Shared T)) (s : Shared T) (self : Handshake).

Lemma new_eq hp :
  new hp = ((mkHandshake (fresh (dom hp)), mkHandshake (fresh (dom hp))),
            <[fresh (dom hp) := mkShared None 2]> hp).
Proof.
  unfold new, arc_new, arc_clone; simpl.
  rewrite lookup_insert_eq; simpl.
  by rewrite insert_insert_eq.
Qed.

Lemma try_push_empty hp self s v :
  hp !! common self = Some s -> value s = None ->
  try_push self v hp = Ret (Ok (Ok tt)) (<[common self := mkShared (Some v) (strong s)]> hp).
Proof. intros Hl Hv. unfold try_push. by rewrite Hl, Hv. Qed.

Lemma try_push_full hp self s v w :
  hp !! common self = Some s -> value s = Some w ->
  try_push self v hp = Panic push_assert_msg.
Proof. intros Hl Hv. unfold try_push. by rewrite Hl, Hv. Qed.

Lemma try_pull_empty hp self s :
  hp !! common self = Some s -> value s = None ->
  try_pull self hp = Ret (Ok (Err self)) hp.
Proof. intros Hl Hv. unfold try_pull. by rewrite Hl, Hv. Qed.

Lemma try_pull_full hp self s w :
  hp !! common self = Some s -> value s = Some w ->
  try_pull self hp = Panic push_assert_msg.
Proof. intros Hl Hv. unfold try_pull. by rewrite Hl, Hv. Qed.

Lemma join_empty {U} hp self s v (f : T -> T -> U) :
  hp !! common self = Some s -> value s = None ->
  join self v f hp = Ret (Err canceled) (drop_handle self hp).
Proof. intros Hl Hv. unfold join. by rewrite (try_pull_empty hp self s). Qed.

Lemma join_full {U} hp self s v w (f : T -> T -> U) :
  hp !! common self = Some s -> value s = Some w ->
  join self v f hp = Panic push_assert_msg.
Proof. intros Hl Hv. unfold join. by rewrite (try_pull_full hp self s w). Qed.

(** After a drop, the slot of the handle is either freed or keeps its
    content. *)
Lemma drop_handle_lookup hp self s :
  hp !! common self = Some s ->
  drop_handle self hp !! common self = None \/
  exists n, drop_handle self hp !! common self = Some (mkShared (value s) n).
Proof.
  intros Hl. unfold drop_handle, arc_drop. rewrite Hl.
  destruct (strong s) as [|[|n]].
  - left. apply lookup_delete_eq.
  - left. apply lookup_delete_eq.
  - right. exists (S n). apply lookup_insert_eq.
Qed.

Lemma new_lookup hp :
  let '((a, b), h0) := new hp in
  common a = fresh (dom hp) /\ common b = fresh (dom hp) /\
  h0 !! fresh (dom hp) = Some (mkShared None 2).
Proof. rewrite new_eq. simpl. repeat split. apply lookup_insert_eq. Qed.

Lemma drop_handle_two hp self (o : option T) :
  hp !! common self = Some (mkShared o 2) ->
  drop_handle self hp = <[common self := mkShared o 1]> hp.
Proof. intros Hl. unfold drop_handle, arc_drop. by rewrite Hl. Qed.

Lemma drop_handle_one hp self (o : option T) :
  hp !! common self = Some (mkShared o 1) ->
  drop_handle self hp = delete (common self) hp.
Proof. intros Hl. unfold drop_handle, arc_drop. by rewrite Hl. Qed.

(** ** Claims on a fresh pair *)

(** C1 (evaluated at the failing input).  On a fresh pair, [join] on the
    empty slot deposits nothing and returns [Err(Canceled)] instead of
    [Ok(None)]; and once the peer has pushed, [join] panics on the
    [assert!] inherited from [try_pull] instead of combining. *)
Theorem join_fresh_pair_cancels_or_panics {U} hp (v w : T) (f : T -> T -> U) :
  let '((a, b), h0) := new hp in
  join a v f h0 = Ret (Err canceled) (<[common a := mkShared None 1]> h0) /\
  (exists h1, try_push b w h0 = Ret (Ok (Ok tt)) h1 /\ join a v f h1 = Panic push_assert_msg).
Proof.
  rewrite new_eq. set (l := fresh (dom hp)).
  assert (Hl : (<[l := mkShared None 2]> hp : gmap nat (Shared T)) !! l = Some (mkShared None 2))
    by apply lookup_insert_eq.
  split.
  - rewrite (join_empty _ (mkHandshake l) _ v f Hl eq_refl). f_equal. by apply drop_handle_two.
  - eexists. rewrite (try_push_empty _ (mkHandshake l) _ w Hl eq_refl). split; [reflexivity|].
    apply (join_full _ _ (mkShared (Some w) 2) v w f); [|reflexivity].
    apply lookup_insert_eq.
Qed.

(** C2 (evaluated at the failing input).  For a fresh pair, whichever side
    joins first, both [join] calls return [Err(Canceled)]: neither yields a
    combined result and neither yields [Ok(None)]. *)
Theorem joins_of_fresh_pair_both_cancel {U} hp (v1 v2 : T) (f g : T -> T -> U) :
  let '((a, b), h0) := new hp in
  (exists h1 h2, join a v1 f h0 = Ret (Err canceled) h1 /\
                 join b v2 g h1 = Ret (Err canceled) h2) /\
  (exists h1 h2, join b v2 g h0 = Ret (Err canceled) h1 /\
                 join a v1 f h1 = Ret (Err canceled) h2).
Proof.
  rewrite new_eq. set (l := fresh (dom hp)).
  assert (Hl : (<[l := mkShared None 2]> hp : gmap nat (Shared T)) !! l = Some (mkShared None 2))
    by apply lookup_insert_eq.
  pose proof (drop_handle_two _ (mkHandshake l) None Hl) as Hd.
  assert (Hl1 : drop_handle (mkHandshake l) (<[l := mkShared None 2]> hp) !! l
                = Some (mkShared None 1))
    by (rewrite Hd; apply lookup_insert_eq).
  split; do 2 eexists; split;
    [ exact (join_empty _ (mkHandshake l) _ _ _ Hl eq_refl)
    | exact (join_empty _ (mkHandshake l) _ _ _ Hl1 eq_refl)
    | exact (join_empty _ (mkHandshake l) _ _ _ Hl eq_refl)
    | exact (join_empty _ (mkHandshake l) _ _ _ Hl1 eq_refl) ].
Qed.

(** C3 (evaluated at the failing input).  On a fresh pair, a successful
    [try_push(x)] on one side followed by [try_pull] on the other side
    panics on [assert!(common.is_none())] instead of returning [x]. *)
Theorem push_then_pull_panics hp (x : T) :
  let '((a, b), h0) := new hp in
  (exists h1, try_push a x h0 = Ret (Ok (Ok tt)) h1 /\ try_pull b h1 = Panic push_assert_msg) /\
  (exists h1, try_push b x h0 = Ret (Ok (Ok tt)) h1 /\ try_pull a h1 = Panic push_assert_msg).
Proof.
  rewrite new_eq. set (l := fresh (dom hp)).
  assert (Hl : (<[l := mkShared None 2]> hp : gmap nat (Shared T)) !! l = Some (mkShared None 2))
    by apply lookup_insert_eq.
  split; eexists; rewrite (try_push_empty _ (mkHandshake l) _ x Hl eq_refl);
    (split; [reflexivity|]);
    apply (try_pull_full _ _ (mkShared (Some x) 2) x); [apply lookup_insert_eq | reflexivity |
                                                         apply lookup_insert_eq | reflexivity].
Qed.

(** C4 (evaluated at the failing input).  When one side of a fresh pair is
    dropped without pushing, [try_pull] on the survivor returns
    [Ok(Err(self))], the handle, and never [Err(Canceled)]; [join] on the
    survivor does return [Err(Canceled)]. *)
Theorem pull_after_peer_drop_returns_handle {U} hp (v : T) (f : T -> T -> U) :
  let '((a, b), h0) := new hp in
  try_pull b (drop_handle a h0) = Ret (Ok (Err b)) (drop_handle a h0) /\
  try_pull a (drop_handle b h0) = Ret (Ok (Err a)) (drop_handle b h0) /\
  join b v f (drop_handle a h0) = Ret (Err canceled) (drop_handle b (drop_handle a h0)).
Proof.
  rewrite new_eq. set (l := fresh (dom hp)).
  assert (Hl : (<[l := mkShared None 2]> hp : gmap nat (Shared T)) !! l = Some (mkShared None 2))
    by apply lookup_insert_eq.
  pose proof (drop_handle_two _ (mkHandshake l) None Hl) as Hd.
  assert (Hl1 : drop_handle (mkHandshake l) (<[l := mkShared None 2]> hp) !! l
                = Some (mkShared None 1))
    by (rewrite Hd; apply lookup_insert_eq).
  split; [|split].
  - exact (try_pull_empty _ (mkHandshake l) _ Hl1 eq_refl).
  - exact (try_pull_empty _ (mkHandshake l) _ Hl1 eq_refl).
  - exact (join_empty _ (mkHandshake l) _ _ _ Hl1 eq_refl).
Qed.

End Ops.
End HandshakeFacts.

Module RunFacts.
Import Handshake HandshakeFacts.

Section Inv.
Context {T : Type}.
Implicit Types (c : Config (T:=T)).

Lemma Inv_init : Inv (init (T:=T)).
Proof.
  unfold init. rewrite new_eq. unfold Inv; simpl.
  split; [|split]; [intros h [= <-]; reflexivity | intros h [= <-]; reflexivity |].
  by rewrite lookup_insert_eq.
Qed.

Lemma Inv_handle c sd h :
  Inv c -> handle_of c sd = Some h ->
  common h = slot c /\ exists s, heap c !! slot c = Some s /\ 1 <= strong s.
Proof.
  intros (HL & HR & Hs) Hh.
  assert (Hc : common h = slot c) by (destruct sd; simpl in Hh; eauto).
  split; [exact Hc|].
  unfold live in Hs.
  destruct (heap c !! slot c) as [s|].
  - exists s. split; [reflexivity|].
    destruct sd; simpl in Hh; rewrite Hh in Hs;
      destruct (left c), (right c), (value s); simpl in *; lia.
  - destruct sd; simpl in Hh; rewrite Hh in Hs;
      destruct (left c), (right c); simpl in *; lia.
Qed.

Lemma update_same c sd h :
  handle_of c sd = Some h -> update c (heap c) sd (Some h) = c.
Proof. destruct c, sd; simpl; intros ->; reflexivity. Qed.

Lemma Inv_drop c sd h :
  Inv c -> handle_of c sd = Some h ->
  Inv (update c (drop_handle h (heap c)) sd None) /\
  (forall v, contents c = Some (Some v) ->
             contents (update c (drop_handle h (heap c)) sd None) = Some (Some v)).
Proof.
  intros HI Hh. destruct (Inv_handle c sd h HI Hh) as (Hc & s & Es & Hs1).
  destruct HI as (HL & HR & Hs).
  unfold drop_handle, arc_drop, contents. rewrite Hc, Es. rewrite Es in Hs.
  destruct c as [hp l L R]; simpl in *.
  unfold live in Hs; simpl in Hs.
  destruct (strong s) as [|[|n]] eqn:Estr; [lia| |].
  - assert (Hv : value s = None /\ live (update (mkConfig hp l L R) (delete l hp) sd None) = 0).
    { destruct sd; simpl in Hh; simpl in *;
        destruct (value s), L, R; simpl in *; unfold live; simpl; split; congruence || lia. }
    destruct Hv as [Hv Hlive].
    split.
    + destruct sd; simpl in *; (split; [|split]); simpl; try done;
        try (rewrite lookup_delete_eq; exact Hlive).
    + intros v Hcv. destruct sd; simpl in Hcv; rewrite ?Es in Hcv; simpl in Hcv; congruence.
  - split.
    + destruct sd; simpl in *; (split; [|split]); simpl; try done;
        rewrite lookup_insert_eq; simpl; unfold live; simpl;
        destruct L, R, (value s); simpl in *; try discriminate; lia.
    + intros v Hcv. destruct sd; simpl in *; rewrite lookup_insert_eq; simpl;
        rewrite ?Es in Hcv; simpl in Hcv; exact Hcv.
Qed.

Lemma Inv_push c sd h s (v : T) :
  Inv c -> handle_of c sd = Some h -> heap c !! slot c = Some s -> value s = None ->
  Inv (update c (<[slot c := mkShared (Some v) (strong s)]> (heap c)) sd None).
Proof.
  intros (HL & HR & Hs) Hh Es Hv. rewrite Es, Hv in Hs.
  destruct c as [hp l L R]; unfold live in Hs; simpl in *.
  destruct sd; simpl in *; (split; [|split]); simpl; try done;
    rewrite lookup_insert_eq; simpl; unfold live; simpl;
    destruct L, R; simpl in *; try discriminate; lia.
Qed.

(** One step keeps the invariant, and a full slot stays full with the same
    value. *)
Lemma step_Inv c sd o c' :
  Inv c -> step c sd o = Some c' ->
  Inv c' /\ (forall v, contents c = Some (Some v) -> contents c' = Some (Some v)).
Proof.
  intros HI Hst. unfold step in Hst.
  destruct (handle_of c sd) as [h|] eqn:Hh; [|discriminate].
  destruct (Inv_handle c sd h HI Hh) as (Hc & s & Es & _).
  assert (El : heap c !! common h = Some s) by (rewrite Hc; exact Es).
  assert (Hcs : contents c = Some (value s)) by (unfold contents; rewrite Es; reflexivity).
  destruct o as [v| |v f| |].
  - destruct (value s) as [w|] eqn:Hv.
    + rewrite (try_push_full _ h s v w El Hv) in Hst. discriminate.
    + rewrite (try_push_empty _ h s v El Hv) in Hst. injection Hst as <-.
      rewrite Hc. split; [exact (Inv_push c sd h s v HI Hh Es Hv)|].
      intros v0. rewrite Hcs. discriminate.
  - destruct (value s) as [w|] eqn:Hv.
    + rewrite (try_pull_full _ h s w El Hv) in Hst. discriminate.
    + rewrite (try_pull_empty _ h s El Hv) in Hst. injection Hst as <-.
      rewrite (update_same c sd h Hh). auto.
  - destruct (value s) as [w|] eqn:Hv.
    + rewrite (join_full _ h s v w f El Hv) in Hst. discriminate.
    + rewrite (join_empty _ h s v f El Hv) in Hst. injection Hst as <-.
      by apply Inv_drop.
  - unfold is_set in Hst. rewrite El in Hst.
    destruct (value s); injection Hst as <-; rewrite (update_same c sd h Hh); auto.
  - injection Hst as <-. by apply Inv_drop.
Qed.

Lemma reachable_Inv c : reachable c -> Inv c.
Proof.
  induction 1 as [|c sd o c' _ IH Hst].
  - apply Inv_init.
  - exact (proj1 (step_Inv c sd o c' IH Hst)).
Qed.

(** Along a run from a configuration whose slot holds [v], every visited
    configuration holds [v]. *)
Lemma run_full_stays c ops hist (v : T) :
  Inv c -> run c ops = Some hist -> contents c = Some (Some v) ->
  Forall (fun d => contents d = Some (Some v)) hist.
Proof.
  revert c hist. induction ops as [|[sd o] ops IH]; intros c hist HI Hr Hv; simpl in Hr.
  - injection Hr as <-. by constructor.
  - destruct (step c sd o) as [c'|] eqn:Hst; [|discriminate].
    destruct (run c' ops) as [hist'|] eqn:Hr'; [|discriminate].
    injection Hr as <-.
    destruct (step_Inv c sd o c' HI Hst) as [HI' Hm].
    constructor; [exact Hv|]. exact (IH c' hist' HI' Hr' (Hm v Hv)).
Qed.

Lemma run_full_later c ops hist i j (v : T) :
  Inv c -> run c ops = Some hist -> i <= j ->
  contents <$> hist !! i = Some (Some (Some v)) ->
  forall d, hist !! j = Some d -> contents d = Some (Some v).
Proof.
  revert c hist i j. induction ops as [|[sd o] ops IH]; intros c hist i j HI Hr Hij Hi d Hj;
    simpl in Hr.
  - injection Hr as <-. destruct i, j; simpl in *; try lia; try discriminate.
    injection Hj as <-. by injection Hi.
  - destruct (step c sd o) as [c'|] eqn:Hst; [|discriminate].
    destruct (run c' ops) as [hist'|] eqn:Hr'; [|discriminate].
    injection Hr as <-.
    destruct (step_Inv c sd o c' HI Hst) as [HI' Hm].
    destruct i as [|i].
    + simpl in Hi. injection Hi as Hv.
      assert (Hall : Forall (fun d => contents d = Some (Some v)) (c :: hist')).
      { constructor; [exact Hv|]. exact (run_full_stays c' ops hist' v HI' Hr' (Hm v Hv)). }
      rewrite Forall_lookup in Hall. exact (Hall j d Hj).
    + destruct j as [|j]; [lia|]. simpl in Hi, Hj.
      exact (IH c' hist' i j HI' Hr' ltac:(lia) Hi d Hj).
Qed.

End Inv.
End RunFacts.

Module Claims.
Import Handshake HandshakeFacts RunFacts.

Section ClaimProofs.
Context {T : Type}.
Implicit Types (c : Config (T:=T)).

Lemma drop_handle_other (hp : gmap nat (Shared T)) self l :
  l <> common self -> drop_handle self hp !! l = hp !! l.
Proof.
  intros Hne. unfold drop_handle, arc_drop.
  destruct (hp !! common self) as [s|]; [|reflexivity].
  destruct (strong s) as [|[|n]].
  - by apply lookup_delete_ne.
  - by apply lookup_delete_ne.
  - by apply lookup_insert_ne.
Qed.

(** C5.  [join] on an empty slot returns [Err(Canceled)] at once: it
    releases its handle, the slot stays empty (or is freed with the last
    handle), and no other allocation changes: nothing is deposited. *)
Theorem join_empty_slot_cancels {U} (hp : gmap nat (Shared T)) self s (v : T)
    (f : T -> T -> U) :
  hp !! common self = Some s -> value s = None ->
  join self v f hp = Ret (Err canceled) (drop_handle self hp) /\
  (forall s', drop_handle self hp !! common self = Some s' -> value s' = None) /\
  (forall l, l <> common self -> drop_handle self hp !! l = hp !! l).
Proof.
  intros Hl Hv. split; [|split].
  - exact (join_empty hp self s v f Hl Hv).
  - intros s' Hs'. destruct (drop_handle_lookup hp self s Hl) as [Hn | [n Hn]];
      rewrite Hn in Hs'; [discriminate|]. injection Hs' as <-. exact Hv.
  - intros l Hne. exact (drop_handle_other hp self l Hne).
Qed.

Lemma contents_update c sd hp (oh : option Handshake) :
  contents (update c hp sd oh) = value <$> hp !! slot c.
Proof. destruct sd; reflexivity. Qed.

Lemma handle_of_update c sd hp (oh : option Handshake) :
  handle_of (update c hp sd oh) sd = oh.
Proof. destruct sd; reflexivity. Qed.

(** C6 (evaluated at the failing input).  On a fresh pair, [try_push(x)]
    on one side succeeds and consumes that handle; the other side is then
    dropped, so no handle of the pair is left.  The allocation is still
    alive with strong count 1 and still holds [x]: the value is not dropped
    when the pair is discarded, because [try_push] forgets its handle
    ([std::mem::forget(self)]) without releasing the Arc. *)
Theorem push_then_discard_keeps_value (x : T) :
  exists c1 c2,
    step init Left (OpPush x) = Some c1 /\ contents c1 = Some (Some x) /\
    left c1 = None /\
    step c1 Right OpDrop = Some c2 /\
    left c2 = None /\ right c2 = None /\
    heap c2 !! slot c2 = Some (mkShared (Some x) 1).
Proof.
  unfold init. rewrite new_eq. cbn [fst snd].
  set (l := fresh (dom (∅ : gmap nat (Shared T)))).
  assert (Hl : (<[l := mkShared None 2]> ∅ : gmap nat (Shared T)) !! l = Some (mkShared None 2))
    by apply lookup_insert_eq.
  assert (Hp : step (mkConfig (<[l := mkShared None 2]> ∅) l (Some (mkHandshake l))
                       (Some (mkHandshake l))) Left (OpPush x)
               = Some (mkConfig (<[l := mkShared (Some x) 2]> (<[l := mkShared None 2]> ∅)) l
                                None (Some (mkHandshake l)))).
  { unfold step. simpl. rewrite (try_push_empty _ (mkHandshake l) _ x Hl eq_refl). reflexivity. }
  eexists; eexists. split; [exact Hp|].
  split; [unfold contents; simpl; rewrite lookup_insert_eq; reflexivity|].
  split; [reflexivity|].
  split.
  { unfold step. simpl. f_equal. }
  split; [reflexivity|]. split; [reflexivity|]. simpl.
  rewrite (drop_handle_two _ (mkHandshake l) (Some x)); [|apply lookup_insert_eq].
  apply lookup_insert_eq.
Qed.

(** C7.  In every reachable state, [try_push] through a live handle on a
    full slot panics on its [assert!]: no [Result] is returned, no heap is
    produced (the value is not overwritten), and the run stops. *)
Theorem try_push_full_slot_panics c sd h (v w : T) :
  reachable c -> handle_of c sd = Some h -> contents c = Some (Some w) ->
  try_push h v (heap c) = Panic push_assert_msg /\ step c sd (OpPush v) = None.
Proof.
  intros Hr Hh Hc. pose proof (reachable_Inv c Hr) as HI.
  destruct (Inv_handle c sd h HI Hh) as (Hcm & s & Es & _).
  assert (Hv : value s = Some w) by (unfold contents in Hc; rewrite Es in Hc; by injection Hc).
  assert (El : heap c !! common h = Some s) by (rewrite Hcm; exact Es).
  pose proof (try_push_full _ h s v w El Hv) as Hp.
  split; [exact Hp|]. unfold step. by rewrite Hh, Hp.
Qed.


(** C8.  In every reachable state, [try_pull] through a live handle on an
    empty slot returns [Ok(Err(self))], the very handle, and leaves the heap
    unchanged, so the run continues with the handle still owned.  The other
    consuming operations never hand their handle back: [try_push] never
    returns its [Ok(Err((self, value)))] variant, and a step of [try_push]
    or [join] always consumes the handle. *)
Theorem try_pull_empty_returns_handle c sd h :
  reachable c -> handle_of c sd = Some h -> contents c = Some None ->
  try_pull h (heap c) = Ret (Ok (Err h)) (heap c) /\ step c sd OpPull = Some c /\
  (forall (hp : gmap nat (Shared T)) self (v : T) h' (w : T) hp',
     try_push self v hp <> Ret (Ok (Err (h', w))) hp') /\
  (forall c0 sd0 (v : T) c', step c0 sd0 (OpPush v) = Some c' -> handle_of c' sd0 = None) /\
  (forall c0 sd0 (v : T) f c', step c0 sd0 (OpJoin v f) = Some c' -> handle_of c' sd0 = None).
Proof.
  intros Hr Hh Hc. pose proof (reachable_Inv c Hr) as HI.
  destruct (Inv_handle c sd h HI Hh) as (Hcm & s & Es & _).
  assert (Hv : value s = None) by (unfold contents in Hc; rewrite Es in Hc; by injection Hc).
  assert (El : heap c !! common h = Some s) by (rewrite Hcm; exact Es).
  pose proof (try_pull_empty _ h s El Hv) as Hp.
  split; [exact Hp|]. split.
  { unfold step. rewrite Hh, Hp. f_equal. exact (update_same c sd h Hh). }
  split; [|split].
  - intros hp self v h' w hp'. unfold try_push.
    destruct (hp !! common self) as [s'|]; [|discriminate].
    destruct (value s'); discriminate.
  - intros c0 sd0 v c' Hst. unfold step in Hst.
    destruct (handle_of c0 sd0) as [h0|]; [|discriminate].
    unfold try_push in Hst.
    destruct (heap c0 !! common h0) as [s0|]; [|discriminate].
    destruct (value s0); [discriminate|].
    injection Hst as <-. apply handle_of_update.
  - intros c0 sd0 v f c' Hst. unfold step in Hst.
    destruct (handle_of c0 sd0) as [h0|]; [|discriminate].
    destruct (join h0 v f (heap c0)); [|discriminate].
    injection Hst as <-. apply handle_of_update.
Qed.

(** C9.  Along every run of a fresh pair in which no operation panics, all
    values ever seen in the slot are the same value, and once the slot has
    gone from full to empty it is never full again: at most one value is
    ever written, and a taken slot never refills. *)
Theorem slot_written_at_most_once ops hist :
  run (init (T:=T)) ops = Some hist ->
  (forall i j (v w : T),
     contents <$> hist !! i = Some (Some (Some v)) ->
     contents <$> hist !! j = Some (Some (Some w)) -> v = w) /\
  (forall i j k (v : T),
     i < j -> j < k ->
     contents <$> hist !! i = Some (Some (Some v)) ->
     contents <$> hist !! j = Some (Some None) ->
     forall w, contents <$> hist !! k <> Some (Some (Some w))).
Proof.
  intros Hrun. pose proof (Inv_init (T:=T)) as HI.
  split.
  - intros i j v w Hi Hj.
    destruct (Nat.le_ge_cases i j) as [Hij|Hji].
    + destruct (hist !! j) as [d|] eqn:Ed; [|discriminate].
      pose proof (run_full_later _ ops hist i j v HI Hrun Hij Hi d Ed) as Hd.
      simpl in Hj. rewrite Hd in Hj. by injection Hj.
    + destruct (hist !! i) as [d|] eqn:Ed; [|discriminate].
      pose proof (run_full_later _ ops hist j i w HI Hrun Hji Hj d Ed) as Hd.
      simpl in Hi. rewrite Hd in Hi. by injection Hi.
  - intros i j k v Hij Hjk Hi Hj w Hk.
    destruct (hist !! j) as [d|] eqn:Ed; [|discriminate].
    pose proof (run_full_later _ ops hist i j v HI Hrun ltac:(lia) Hi d Ed) as Hd.
    simpl in Hj. rewrite Hd in Hj. discriminate.
Qed.

(** C10.  When [T]'s [==] is equality, [a == b] returns [true] exactly when
    the two slots hold equal contents; in particular the two live handles of
    one pair, which share one slot, compare equal in every reachable
    state. *)
Theorem eq_compares_slots (teq : T -> T -> bool)
    (Hteq : forall x y, teq x y = true <-> x = y) :
  (forall (hp : gmap nat (Shared T)) a b sa sb,
     hp !! common a = Some sa -> hp !! common b = Some sb ->
     exists r, eq teq a b hp = Ret r hp /\ (r = true <-> value sa = value sb)) /\
  (forall c a b, reachable c -> left c = Some a -> right c = Some b ->
     eq teq a b (heap c) = Ret true (heap c)).
Proof.
  assert (Hopt : forall x y : option T, option_eq teq x y = true <-> x = y).
  { intros [x|] [y|]; simpl; rewrite ?Hteq; split; congruence. }
  split.
  - intros hp a b sa sb Ha Hb. exists (option_eq teq (value sa) (value sb)).
    unfold eq. rewrite Ha, Hb. split; [reflexivity|]. apply Hopt.
  - intros c a b Hr Ha Hb. pose proof (reachable_Inv c Hr) as HI.
    destruct (Inv_handle c Left a HI Ha) as (Hca & s & Es & _).
    destruct (Inv_handle c Right b HI Hb) as (Hcb & _).
    unfold eq. rewrite Hca, Hcb, Es. f_equal. by apply Hopt.
Qed.

End ClaimProofs.
Lemma join_empty_slot_cancels_witness :
  (<[0 := mkShared (T:=nat) None 2]> ∅ : gmap nat (Shared nat)) !! 0 = Some (mkShared None 2) /\
  join (mkHandshake 0) 1 Nat.add (<[0 := mkShared (T:=nat) None 2]> ∅)
  = Ret (Err canceled) (drop_handle (mkHandshake 0) (<[0 := mkShared None 2]> ∅)).
Proof.
  split; [reflexivity|].
  exact (proj1 (join_empty_slot_cancels (<[0 := mkShared None 2]> ∅) (mkHandshake 0)
                  (mkShared None 2) 1 Nat.add eq_refl eq_refl)).
Defined.

Lemma try_push_full_slot_panics_witness :
  reachable after_left_push /\ contents after_left_push = Some (Some 5) /\
  step after_left_push Right (OpPush 6) = None.
Proof.
  assert (Hr : reachable after_left_push)
    by (apply (reachable_step init Left (OpPush 5)); [constructor | reflexivity]).
  split; [exact Hr|]. split; [reflexivity|].
  exact (proj2 (try_push_full_slot_panics after_left_push Right (mkHandshake 0) 6 5
                  Hr eq_refl eq_refl)).
Defined.

Lemma try_pull_empty_returns_handle_witness :
  contents (init (T:=nat)) = Some None /\
  step (init (T:=nat)) Left OpPull = Some init.
Proof.
  split; [reflexivity|].
  exact (proj1 (proj2 (try_pull_empty_returns_handle init Left (mkHandshake 0)
                         reachable_init eq_refl eq_refl))).
Defined.

Lemma slot_written_at_most_once_witness :
  exists hist, run init push_isset_drop = Some hist /\
  (forall v w, contents <$> hist !! 1 = Some (Some (Some v)) ->
               contents <$> hist !! 3 = Some (Some (Some w)) -> v = w).
Proof.
  eexists. split; [reflexivity|].
  intros v w. exact (proj1 (slot_written_at_most_once push_isset_drop _ eq_refl) 1 3 v w).
Defined.

Lemma eq_compares_slots_witness :
  (forall x y, Nat.eqb x y = true <-> x = y) /\
  eq Nat.eqb (mkHandshake 0) (mkHandshake 0) (heap (init (T:=nat))) = Ret true (heap init).
Proof.
  split; [exact Nat.eqb_eq|].
  exact (proj2 (eq_compares_slots Nat.eqb Nat.eqb_eq) init _ _ reachable_init eq_refl eq_refl).
Defined.

End Claims.
Module Extras.
Import Handshake HandshakeFacts RunFacts Demo.

Section ExtraProofs.
Context {T : Type}.
Implicit Types (hp : gmap nat (Shared T)) (self : Handshake).

(** X1.  [Handshake::new] allocates one fresh allocation, not used before,
    holding an empty slot with strong count 2; both handles point at it,
    every other allocation is untouched, and [is_set] is [false] on both
    handles. *)
Theorem new_fresh_pair hp :
  let '((a, b), h0) := new hp in
  common a = common b /\ common a ∉ dom hp /\
  h0 !! common a = Some (mkShared None 2) /\
  (forall l, l <> common a -> h0 !! l = hp !! l) /\
  is_set a h0 = Ret false h0 /\ is_set b h0 = Ret false h0.
Proof.
  rewrite new_eq. simpl. set (l := fresh (dom hp)).
  assert (Hl : (<[l := mkShared None 2]> hp : gmap nat (Shared T)) !! l = Some (mkShared None 2))
    by apply lookup_insert_eq.
  split; [reflexivity|]. split; [apply is_fresh|]. split; [exact Hl|].
  split; [intros l' Hne; by apply lookup_insert_ne|].
  unfold is_set; simpl. rewrite Hl. split; reflexivity.
Qed.

(** X2.  Dropping both handles of a fresh pair, in either order, frees the
    allocation: the heap is exactly the one before [Handshake::new]. *)
Theorem new_drop_both_restores hp :
  let '((a, b), h0) := new hp in
  drop_handle b (drop_handle a h0) = hp /\ drop_handle a (drop_handle b h0) = hp.
Proof.
  rewrite new_eq. set (l := fresh (dom hp)).
  assert (Hl : (<[l := mkShared None 2]> hp : gmap nat (Shared T)) !! l = Some (mkShared None 2))
    by apply lookup_insert_eq.
  assert (Hfree : hp !! l = None) by (apply not_elem_of_dom_1, is_fresh).
  rewrite (drop_handle_two _ (mkHandshake l) None Hl). cbn [common].
  assert (Hl1 : (<[l := mkShared None 1]> (<[l := mkShared None 2]> hp) : gmap nat (Shared T))
                 !! l = Some (mkShared None 1)) by apply lookup_insert_eq.
  rewrite (drop_handle_one _ (mkHandshake l) None Hl1). cbn [common].
  rewrite !delete_insert_eq. rewrite (delete_id hp l Hfree). split; reflexivity.
Qed.

(** X3.  [try_push] forgets its handle, so its strong count is never
    released: after one side of a fresh pair pushes [x] and the other side is
    dropped, the allocation is still alive with strong count 1 and still
    holds [x].  The pushed value is leaked, not dropped. *)
Theorem push_then_drop_peer_leaks hp (x : T) :
  let '((a, b), h0) := new hp in
  exists h1, try_push a x h0 = Ret (Ok (Ok tt)) h1 /\
             drop_handle b h1 !! common a = Some (mkShared (Some x) 1).
Proof.
  rewrite new_eq. set (l := fresh (dom hp)).
  assert (Hl : (<[l := mkShared None 2]> hp : gmap nat (Shared T)) !! l = Some (mkShared None 2))
    by apply lookup_insert_eq.
  eexists. rewrite (try_push_empty _ (mkHandshake l) _ x Hl eq_refl). split; [reflexivity|].
  simpl. rewrite (drop_handle_two _ (mkHandshake l) (Some x)); [|apply lookup_insert_eq].
  apply lookup_insert_eq.
Qed.

(** X4.  [try_pull] never returns a value and never returns
    [Err(Canceled)]: it either panics or hands back its own handle with the
    heap unchanged. *)
Theorem try_pull_never_yields hp self :
  try_pull self hp = Panic push_assert_msg \/ try_pull self hp = Panic dangling_msg \/
  try_pull self hp = Ret (Ok (Err self)) hp.
Proof.
  unfold try_pull. destruct (hp !! common self) as [s|]; [|auto].
  destruct (value s); auto.
Qed.

(** X5.  [join] never returns [Ok]: neither a combined result nor
    [Ok(None)].  It either panics or returns [Err(Canceled)] after dropping
    its handle. *)
Theorem join_never_ok {U} hp self (v : T) (f : T -> T -> U) :
  join self v f hp = Panic push_assert_msg \/ join self v f hp = Panic dangling_msg \/
  join self v f hp = Ret (Err canceled) (drop_handle self hp).
Proof.
  unfold join. destruct (try_pull_never_yields hp self) as [H|[H|H]]; rewrite H; auto.
Qed.

(** X6.  [try_push] never hands its value back (neither [Err(v)] nor
    [Ok(Err((self, v)))] is ever returned): it either panics or writes the
    value into an empty slot, keeping the strong count, and returns
    [Ok(Ok(()))]. *)
Theorem try_push_never_returns_value hp self (v : T) :
  try_push self v hp = Panic push_assert_msg \/ try_push self v hp = Panic dangling_msg \/
  exists s, hp !! common self = Some s /\ value s = None /\
    try_push self v hp = Ret (Ok (Ok tt)) (<[common self := mkShared (Some v) (strong s)]> hp).
Proof.
  unfold try_push. destruct (hp !! common self) as [s|] eqn:E; [|auto].
  destruct (value s) eqn:Ev; [auto|]. right; right. exists s. auto.
Qed.

Section Reach.
Implicit Types (c : Config (T:=T)).

(** An allocation that survives the release of its handles holds a value. *)
Definition empty_is_held c : Prop :=
  forall s, heap c !! slot c = Some s -> value s = None -> 1 <= live c.

Lemma arc_drop_self_strong (hp : gmap nat (Shared T)) l s' :
  arc_drop l hp !! l = Some s' -> 1 <= strong s'.
Proof.
  unfold arc_drop. destruct (hp !! l) as [s|] eqn:E.
  - destruct (strong s) as [|[|n]].
    + rewrite lookup_delete_eq. discriminate.
    + rewrite lookup_delete_eq. discriminate.
    + rewrite lookup_insert_eq. intros [= <-]. simpl. lia.
  - rewrite E. discriminate.
Qed.

Lemma empty_is_held_drop c sd h :
  Inv c -> handle_of c sd = Some h ->
  empty_is_held (update c (drop_handle h (heap c)) sd None).
Proof.
  intros HI Hh. destruct (Inv_handle c sd h HI Hh) as (Hc & _).
  destruct (Inv_drop c sd h HI Hh) as [(_ & _ & HI') _].
  intros s' Hs' Hv.
  assert (Hslot : slot (update c (drop_handle h (heap c)) sd None) = slot c) by (destruct sd; reflexivity).
  assert (Hheap : heap (update c (drop_handle h (heap c)) sd None) = drop_handle h (heap c))
    by (destruct sd; reflexivity).
  rewrite Hslot, Hheap in Hs', HI'. rewrite Hs', Hv in HI'.
  unfold drop_handle in Hs'. rewrite Hc in Hs'.
  pose proof (arc_drop_self_strong _ _ _ Hs'). lia.
Qed.

Lemma step_empty_is_held c sd o c' :
  Inv c -> empty_is_held c -> step c sd o = Some c' -> empty_is_held c'.
Proof.
  intros HI HP Hst. unfold step in Hst.
  destruct (handle_of c sd) as [h|] eqn:Hh; [|discriminate].
  destruct (Inv_handle c sd h HI Hh) as (Hc & s & Es & _).
  assert (El : heap c !! common h = Some s) by (rewrite Hc; exact Es).
  destruct o as [v| |v f| |].
  - destruct (value s) as [w|] eqn:Hv.
    + rewrite (try_push_full _ h s v w El Hv) in Hst. discriminate.
    + rewrite (try_push_empty _ h s v El Hv) in Hst. injection Hst as <-.
      intros s' Hs' Hv'. rewrite Hc in Hs'.
      destruct sd; simpl in Hs'; rewrite lookup_insert_eq in Hs'; injection Hs' as <-;
        discriminate.
  - destruct (value s) as [w|] eqn:Hv.
    + rewrite (try_pull_full _ h s w El Hv) in Hst. discriminate.
    + rewrite (try_pull_empty _ h s El Hv) in Hst. injection Hst as <-.
      by rewrite (update_same c sd h Hh).
  - destruct (value s) as [w|] eqn:Hv.
    + rewrite (join_full _ h s v w f El Hv) in Hst. discriminate.
    + rewrite (join_empty _ h s v f El Hv) in Hst. injection Hst as <-.
      exact (empty_is_held_drop c sd h HI Hh).
  - unfold is_set in Hst. rewrite El in Hst.
    destruct (value s); injection Hst as <-; by rewrite (update_same c sd h Hh).
  - injection Hst as <-. exact (empty_is_held_drop c sd h HI Hh).
Qed.

Lemma reachable_empty_is_held c : reachable c -> Inv c /\ empty_is_held c.
Proof.
  induction 1 as [|c sd o c' _ [HI HP] Hst].
  - split; [apply Inv_init|]. intros s Hs _. unfold live. simpl. lia.
  - split; [exact (proj1 (step_Inv c sd o c' HI Hst))|].
    exact (step_empty_is_held c sd o c' HI HP Hst).
Qed.

(** X8.  In every reachable state, [is_set] on a live handle does not
    panic (the handle's allocation is always alive), leaves the heap
    unchanged and returns [true] exactly when the pair's slot holds a
    value. *)
Theorem is_set_live_handle c sd h :
  reachable c -> handle_of c sd = Some h ->
  exists b, is_set h (heap c) = Ret b (heap c) /\
            (b = true <-> exists v, contents c = Some (Some v)).
Proof.
  intros Hr Hh. pose proof (reachable_Inv c Hr) as HI.
  destruct (Inv_handle c sd h HI Hh) as (Hc & s & Es & _).
  unfold is_set, contents. rewrite Hc, Es. simpl.
  destruct (value s) as [v|].
  - exists true. split; [reflexivity|]. split; [intros _; by exists v | reflexivity].
  - exists false. split; [reflexivity|]. split; [discriminate | intros [v Hv]; discriminate].
Qed.

(** X9.  In every reachable state where both handles are gone (consumed or
    dropped), the pair's allocation is either freed or still alive with
    strong count 1 holding a pushed value: an allocation is leaked exactly
    when a value was pushed and never taken, and never with an empty
    slot. *)
Theorem no_handles_freed_or_leaked c :
  reachable c -> left c = None -> right c = None ->
  heap c !! slot c = None \/ exists v, heap c !! slot c = Some (mkShared (Some v) 1).
Proof.
  intros Hr HL HR. destruct (reachable_empty_is_held c Hr) as [(_ & _ & HI) HP].
  assert (Hlive : live c = 0) by (unfold live; rewrite HL, HR; reflexivity).
  destruct (heap c !! slot c) as [s|] eqn:Es; [right|left; reflexivity].
  destruct s as [[v|] n]; simpl in HI.
  - exists v. rewrite Hlive in HI. simpl in HI. by rewrite HI.
  - pose proof (HP _ Es eq_refl). lia.
Qed.

End Reach.
End ExtraProofs.

Lemma is_set_live_handle_witness :
  reachable after_left_push /\
  is_set (mkHandshake 0) (heap after_left_push) = Ret true (heap after_left_push).
Proof.
  assert (Hr : reachable after_left_push)
    by (apply (reachable_step init Left (OpPush 5)); [constructor | reflexivity]).
  split; [exact Hr|].
  destruct (is_set_live_handle after_left_push Right (mkHandshake 0) Hr eq_refl)
    as (b & Hb & Hiff).
  assert (Htrue : b = true) by (apply Hiff; exists 5; reflexivity).
  rewrite Hb, Htrue. reflexivity.
Defined.

Lemma no_handles_freed_or_leaked_witness :
  reachable after_push_and_drop /\ left after_push_and_drop = None /\
  right after_push_and_drop = None /\
  (heap after_push_and_drop !! slot after_push_and_drop = None \/
   exists v, heap after_push_and_drop !! slot after_push_and_drop = Some (mkShared (Some v) 1)).
Proof.
  assert (Hr : reachable after_push_and_drop).
  { apply (reachable_step after_left_push Right OpDrop); [|reflexivity].
    apply (reachable_step init Left (OpPush 5)); [constructor | reflexivity]. }
  split; [exact Hr|]. split; [reflexivity|]. split; [reflexivity|].
  exact (no_handles_freed_or_leaked after_push_and_drop Hr eq_refl eq_refl).
Defined.

(** X7.  The demonstration program panics in task A, at the [unwrap] of
    [Err(Canceled)] returned by the first [join], before printing anything. *)
Theorem main_panics_on_first_join :
  main = Panic unwrap_err_msg /\
  (let '((u, _), hp) := new (T:=string) ∅ in
   exists hp', join u "Handle Communication" combine hp = Ret (Err canceled) hp').
Proof. split; [reflexivity|]. simpl. eexists. reflexivity. Qed.

End Extras.
